(** * api-gap-report: the configuration module and the pipeline it configures

    The only source file of the tool is [tools/api-gap-report/src/diff_config.py],
    a module of three string constants.  The first part of this development
    embeds that module: the constants as Rocq strings, and the module body as
    a list of statements run by a small evaluator for module-level Python, so
    that what the module binds (and that it does nothing else) is a theorem.

    The second part models the pipeline the constants configure (comparator,
    filter, expectation store).  None of it is in the source tree; those
    definitions are written from the specification and say so. *)

From Stdlib Require Import Ascii.
From stdpp Require Import gmap strings list sorting.

Set Warnings "-register-all".

(** ** The constants of [diff_config.py] *)

Definition DISCOVERY_DOC_URL : string :=
  "https://www.googleapis.com/discovery/v1/apis/compute/v1/rest".

Definition DISCOVERY_DOC_URL_BETA : string :=
  "https://www.googleapis.com/discovery/v1/apis/compute/beta/rest".

Definition YAML_CONFIG_PATH : string :=
  "./config.yaml".

(** ** Module-level Python, as far as a configuration module can use it

    Expressions evaluate to values in a namespace and may emit events (the
    observable effects); statements update the namespace.  Errors are the
    exceptions Python would raise. *)

Module Py.

Inductive value :=
  | VStr (s : string)
  | VNone
  | VModule (name : string).

Inductive expr :=
  | Str (s : string)                    (* "..." *)
  | Paren (e : expr)                    (* ( e ) *)
  | Name (x : string)                   (* x *)
  | Add (e1 e2 : expr)                  (* e1 + e2 *)
  | Call (f : string) (arg : expr).     (* f(e) for a builtin f *)

Inductive stmt :=
  | Assign (target : string) (e : expr)         (* target = e *)
  | ExprStmt (e : expr)                         (* e *)
  | If (c : expr) (body orelse : list stmt)     (* if c: ... else: ... *)
  | Import (m : string).                        (* import m *)

Inductive event :=
  | Called (f : string) (arg : value)
  | Imported (m : string).

Inductive exn :=
  | NameError (x : string)
  | TypeError.

Inductive result (A : Type) :=
  | Ok (a : A)
  | Raise (e : exn).
Arguments Ok {A} a.
Arguments Raise {A} e.

Definition bind {A B} (r : result A) (k : A → result B) : result B :=
  match r with
  | Ok a => k a
  | Raise e => Raise e
  end.

Notation "'let*' x := r 'in' k" := (bind r (λ x, k))
  (at level 10, x name, r at level 100, k at level 200).

Definition truthy (v : value) : bool :=
  match v with
  | VStr s => negb (bool_decide (s = ""))
  | VNone => false
  | VModule _ => true
  end.

Fixpoint eval (ns : gmap string value) (e : expr) : result (value * list event) :=
  match e with
  | Str s => Ok (VStr s, [])
  | Paren e => eval ns e
  | Name x =>
      match ns !! x with
      | Some v => Ok (v, [])
      | None => Raise (NameError x)
      end
  | Add e1 e2 =>
      let* r1 := eval ns e1 in
      let* r2 := eval ns e2 in
      match r1.1, r2.1 with
      | VStr s1, VStr s2 => Ok (VStr (s1 +:+ s2), r1.2 ++ r2.2)
      | _, _ => Raise TypeError
      end
  | Call f arg =>
      let* r := eval ns arg in
      Ok (VNone, r.2 ++ [Called f r.1])
  end.

(** Statements thread the namespace and the trace of events. *)
Fixpoint exec (st : gmap string value * list event) (s : stmt)
  : result (gmap string value * list event) :=
  let run := fix run st (body : list stmt) :=
    match body with
    | [] => Ok st
    | s :: body => let* st' := exec st s in run st' body
    end in
  match s with
  | Assign x e =>
      let* r := eval st.1 e in
      Ok (<[x := r.1]> st.1, st.2 ++ r.2)
  | ExprStmt e =>
      let* r := eval st.1 e in
      Ok (st.1, st.2 ++ r.2)
  | If c body orelse =>
      let* r := eval st.1 c in
      run (st.1, st.2 ++ r.2) (if truthy r.1 then body else orelse)
  | Import m =>
      Ok (<[m := VModule m]> st.1, st.2 ++ [Imported m])
  end.

Fixpoint exec_module (st : gmap string value * list event) (body : list stmt)
  : result (gmap string value * list event) :=
  match body with
  | [] => Ok st
  | s :: body => let* st' := exec st s in exec_module st' body
  end.

(** A statement that only binds a name to a string literal (parenthesised or
    not): no operator, no call, no name to look up, no branch, no import. *)
Fixpoint literal (e : expr) : option string :=
  match e with
  | Str s => Some s
  | Paren e => literal e
  | _ => None
  end.

Definition binding (s : stmt) : option (string * string) :=
  match s with
  | Assign x e => pair x <$> literal e
  | _ => None
  end.

End Py.

(** The body of [diff_config.py], statement by statement (the interpreter
    line and blank lines are not statements). *)
Definition diff_config : list Py.stmt :=
  [ Py.Assign "DISCOVERY_DOC_URL"
      (Py.Paren (Py.Str "https://www.googleapis.com/discovery/v1/apis/compute/v1/rest"));
    Py.Assign "DISCOVERY_DOC_URL_BETA"
      (Py.Paren (Py.Str "https://www.googleapis.com/discovery/v1/apis/compute/beta/rest"));
    Py.Assign "YAML_CONFIG_PATH"
      (Py.Paren (Py.Str "./config.yaml")) ].

(** ** String helpers used to read the constants *)

(** [s.startswith(p)] *)
Definition startswith (p s : string) : bool := String.prefix p s.

(** [s.endswith(p)] *)
Definition endswith (p s : string) : bool :=
  String.prefix (String.rev p) (String.rev s).

(** [p in s] *)
Definition contains (p s : string) : bool :=
  bool_decide (is_Some (String.index 0 p s)).

(** [s.split(sep)] for a one-character separator. *)
Fixpoint split_go (sep : ascii) (cur : string) (s : string) : list string :=
  match s with
  | EmptyString => [String.rev cur]
  | String a s =>
      if Ascii.eqb a sep
      then String.rev cur :: split_go sep "" s
      else split_go sep (String a cur) s
  end.
Definition split (sep : ascii) (s : string) : list string := split_go sep "" s.

(** A URL carries a scheme separator; a bare file-system path does not. *)
Definition is_url (s : string) : bool := contains "://" s.

(** POSIX path handling: a path is absolute when it starts at the root. *)
Definition isabs (p : string) : bool := startswith "/" p.

(** [os.path.join(cwd, p)]: how a path is resolved against the directory the
    process runs in. *)
Definition join (cwd p : string) : string :=
  if isabs p then p
  else if bool_decide (cwd = "") || endswith "/" cwd then cwd +:+ p
  else cwd +:+ "/" +:+ p.

(** ** Orders given by a three-way comparison

    The Gap Set is kept sorted; its order is assembled from comparisons on
    strings, paths and kinds. *)

Class Cmp (A : Type) := cmp : A → A → comparison.
Global Hint Mode Cmp ! : typeclass_instances.

Class CmpLaws (A : Type) `{Cmp A} : Prop := {
  cmp_eq (x y : A) : cmp x y = Eq ↔ x = y;
  cmp_opp (x y : A) : cmp y x = CompOpp (cmp x y);
  cmp_lt_trans (x y z : A) : cmp x y = Lt → cmp y z = Lt → cmp x z = Lt
}.

Definition cmp_le `{Cmp A} (x y : A) : Prop := cmp x y ≠ Gt.

Global Instance comparison_eq_dec : EqDecision comparison.
Proof. solve_decision. Defined.

Global Instance cmp_le_dec `{Cmp A} : RelDecision (cmp_le (A:=A)).
Proof. intros x y. unfold cmp_le. apply _. Defined.

(** Strings compare character by character. *)
Global Instance string_cmp : Cmp string := String.compare.

(** Sequences compare lexicographically by their components; a proper prefix
    comes first. *)
Global Instance list_cmp `{Cmp A} : Cmp (list A) :=
  fix go l1 l2 :=
    match l1, l2 with
    | [], [] => Eq
    | [], _ :: _ => Lt
    | _ :: _, [] => Gt
    | x1 :: l1, x2 :: l2 =>
        match cmp x1 x2 with
        | Eq => go l1 l2
        | c => c
        end
    end.

(** Pairs compare by first component, then by second. *)
Global Instance prod_cmp `{Cmp A, Cmp B} : Cmp (A * B) := λ p q,
  match cmp p.1 q.1 with
  | Eq => cmp p.2 q.2
  | c => c
  end.

(** ** The pipeline the constants configure *)

(** Modelled from the spec: the kind of a Gap, [Added|Removed|Changed]; no
    source file declares it. *)
Inductive gap_kind := Added | Removed | Changed.

(** Modelled from the spec: the detail of a Gap, "a detail describing old vs
    new value" for a changed leaf; additions and removals carry none, and a
    mapping set against a leaf is a change of shape.  No source file declares
    it. *)
Inductive description :=
  | NoDetail
  | Values (old new : string)
  | Shape.

(** Modelled from the spec: the Gap record [{path, kind, detail}]; no source
    file declares it. *)
Record gap := Gap {
  path : list string;
  kind : gap_kind;
  detail : description
}.

(** Modelled from the spec: a Discovery Document, "a tree keyed by resource
    name", a nested mapping whose leaves are values (verb, path template).
    The entries of a mapping are kept in the order the payload lists them, the
    way a parsed JSON object keeps them; no source file declares the type. *)
Inductive document :=
  | Leaf (v : string)
  | Mapping (entries : list (string * document)).

(** Modelled from the spec: the three dispositions of an Expectation Entry;
    no source file declares them. *)
Inductive disposition := ignore_addition | ignore_removal | ignore_change.

(** Modelled from the spec: an Expectation Entry, a path and a disposition;
    no source file declares it. *)
Record expectation := Expectation {
  e_path : list string;
  e_disposition : disposition
}.

(** Modelled from the spec: the error taxonomy of section 7; no source file
    declares it. *)
Inductive error := FetchError | ConfigError | ComparisonError.

Global Instance gap_kind_eq_dec : EqDecision gap_kind.
Proof. solve_decision. Defined.
Global Instance description_eq_dec : EqDecision description.
Proof. solve_decision. Defined.
Global Instance gap_eq_dec : EqDecision gap.
Proof. solve_decision. Defined.
Global Instance disposition_eq_dec : EqDecision disposition.
Proof. solve_decision. Defined.
Global Instance expectation_eq_dec : EqDecision expectation.
Proof. solve_decision. Defined.

(** Modelled from the spec: kinds are ranked in the order the spec lists
    them, for the "path then kind" ordering of the Gap Set. *)
Definition kind_rank (k : gap_kind) : nat :=
  match k with
  | Added => 0
  | Removed => 1
  | Changed => 2
  end.
Global Instance gap_kind_cmp : Cmp gap_kind := λ k1 k2,
  Nat.compare (kind_rank k1) (kind_rank k2).

(** Modelled from the spec: what the Gap Set is ordered by. *)
Definition gap_key (g : gap) : list string * gap_kind := (path g, kind g).

(** Modelled from the spec: "deterministic ordering by path then kind", paths
    "compared lexicographically by their component sequence". *)
Definition gap_le (g1 g2 : gap) : Prop := cmp_le (gap_key g1) (gap_key g2).
Global Instance gap_le_dec : RelDecision gap_le.
Proof. intros g1 g2. unfold gap_le. apply _. Defined.

(** Modelled from the spec: "key present" in a mapping, with the value held
    under the key (the first entry wins, though a well-formed mapping has one
    entry per key). *)
Fixpoint get {V} (k : string) (es : list (string * V)) : option V :=
  match es with
  | [] => None
  | (k', v) :: es => if decide (k = k') then Some v else get k es
  end.

(** Modelled from the spec: a document is "a well-formed nested mapping", one
    entry per key at every depth. *)
Fixpoint well_formed (d : document) : bool :=
  match d with
  | Leaf _ => true
  | Mapping es =>
      bool_decide (NoDup es.*1) && forallb (λ e, well_formed e.2) es
  end.

(** Modelled from the spec: the same inputs "regardless of input key
    ordering".  Two payloads describe the same document when they hold the
    same keys with the same values, in whatever order the keys are listed. *)
Fixpoint same_document (a b : document) : bool :=
  match a, b with
  | Leaf x, Leaf y => bool_decide (x = y)
  | Mapping es, Mapping fs =>
      bool_decide (length es = length fs)
      && forallb (λ e, match get e.1 fs with
                       | Some w => same_document e.2 w
                       | None => false
                       end) es
  | _, _ => false
  end.

Module Comparator.

(** Modelled from the spec: the lock-step walk of section 4.3; the comparator
    is not in the source tree.  At a key of [stable]: absent from [beta] is
    [Removed], present in both recurses (differing leaves are [Changed], a
    leaf against a mapping is recorded as [Changed] too, section 7).  A key
    of [beta] absent from [stable] is [Added]. *)
Fixpoint walk (p : list string) (stable beta : document) : list gap :=
  match stable, beta with
  | Leaf x, Leaf y =>
      if decide (x = y) then [] else [Gap p Changed (Values x y)]
  | Mapping es, Mapping fs =>
      flat_map (λ e,
        match get e.1 fs with
        | None => [Gap (p ++ [e.1]) Removed NoDetail]
        | Some w => walk (p ++ [e.1]) e.2 w
        end) es
      ++ flat_map (λ f,
        match get f.1 es with
        | None => [Gap (p ++ [f.1]) Added NoDetail]
        | Some _ => []
        end) fs
  | _, _ => [Gap p Changed Shape]
  end.

(** Modelled from the spec: [diff(stable, beta) -> Gap Set], the walk from the
    root with its output put in Gap Set order. *)
Definition diff (stable beta : document) : list gap :=
  merge_sort gap_le (walk [] stable beta).

(** Modelled from the spec: the kind a disposition suppresses. *)
Definition suppresses (d : disposition) : gap_kind :=
  match d with
  | ignore_addition => Added
  | ignore_removal => Removed
  | ignore_change => Changed
  end.

(** Modelled from the spec: "A gap is suppressed iff an Expectation Entry
    exists whose path is a prefix-or-exact match of the gap's path and whose
    kind matches". *)
Definition matches (e : expectation) (g : gap) : bool :=
  bool_decide (e_path e `prefix_of` path g)
  && bool_decide (suppresses (e_disposition e) = kind g).

(** Modelled from the spec: a gap is suppressed when some entry of the
    expectations matches it. *)
Definition suppressed (expectations : list expectation) (g : gap) : bool :=
  existsb (λ e, matches e g) expectations.

(** Modelled from the spec: [filter(gaps, expectations) -> (reported,
    suppressed)]; the filter is not in the source tree. *)
Definition filter (gaps : list gap) (expectations : list expectation)
  : list gap * list gap :=
  (base.filter (λ g, suppressed expectations g = false) gaps,
   base.filter (λ g, suppressed expectations g = true) gaps).

End Comparator.

Module ExpectationStore.

(** Modelled from the spec: what makes two entries duplicates, "a duplicate
    path+kind entry". *)
Definition entry_key (e : expectation) : list string * gap_kind :=
  (e_path e, Comparator.suppresses (e_disposition e)).

(** Modelled from the spec: the duplicate check of [load], on the entries in
    the order the file lists them. *)
Definition has_duplicate (es : list expectation) : bool :=
  negb (bool_decide (NoDup (entry_key <$> es))).

Section load.
(** The file system (a missing file reads as [None]) and the parser of the
    structured format (unparseable text gives [None]) are the store's
    collaborators. *)
Variable read_file : string → option string.
Variable parse : string → option (list expectation).

(** Modelled from the spec: [load(path) -> set of Expectation Entry], which
    "fails with ConfigError if the file is missing, not parseable as the
    expected structured format, or contains a duplicate path+kind entry";
    the store is not in the source tree. *)
Definition load (path : string) : error + list expectation :=
  match read_file path with
  | None => inl ConfigError
  | Some text =>
      match parse text with
      | None => inl ConfigError
      | Some es => if has_duplicate es then inl ConfigError else inr es
      end
  end.
End load.

End ExpectationStore.

(** Modelled from the spec: the stable document of the scenarios of
    section 8. *)
Definition stable_doc : document :=
  Mapping [("instances", Mapping [("list", Mapping [("verb", Leaf "GET")])])].

(** Modelled from the spec: the beta document of the scenarios of section 8. *)
Definition beta_doc : document :=
  Mapping [("instances",
            Mapping [("list", Mapping [("verb", Leaf "GET")]);
                     ("insert", Mapping [("verb", Leaf "POST")])])].
(** The beta payload with its keys listed the other way round. *)
Definition beta_doc_reordered : document :=
  Mapping [("instances",
            Mapping [("insert", Mapping [("verb", Leaf "POST")]);
                     ("list", Mapping [("verb", Leaf "GET")])])].

(** * The configuration module *)

Lemma exec_literal_binding st x e lit :
  Py.literal e = Some lit →
  Py.exec st (Py.Assign x e) = Py.Ok (<[x := Py.VStr lit]> st.1, st.2).
Proof.
  intros Hlit. assert (∀ ns, Py.eval ns e = Py.Ok (Py.VStr lit, [])) as He.
  { intros ns. induction e; simplify_eq/=; auto. }
  simpl. rewrite He. simpl. by rewrite app_nil_r.
Qed.

(** C1: the module body is three assignments of string literals
    (DISCOVERY_DOC_URL, DISCOVERY_DOC_URL_BETA, YAML_CONFIG_PATH, in this
    order) and nothing else; run in any namespace it succeeds, emits no event
    and only adds these three bindings, so that from the empty namespace
    exactly these three names are bound, each to its literal. *)
Theorem diff_config_three_constants :
  Py.binding <$> diff_config =
    [ Some ("DISCOVERY_DOC_URL", DISCOVERY_DOC_URL);
      Some ("DISCOVERY_DOC_URL_BETA", DISCOVERY_DOC_URL_BETA);
      Some ("YAML_CONFIG_PATH", YAML_CONFIG_PATH) ]
  ∧ (∀ ns trace,
      Py.exec_module (ns, trace) diff_config =
        Py.Ok (<["YAML_CONFIG_PATH" := Py.VStr YAML_CONFIG_PATH]>
                 (<["DISCOVERY_DOC_URL_BETA" := Py.VStr DISCOVERY_DOC_URL_BETA]>
                    (<["DISCOVERY_DOC_URL" := Py.VStr DISCOVERY_DOC_URL]> ns)),
               trace))
  ∧ (∃ ns,
      Py.exec_module (∅, []) diff_config = Py.Ok (ns, [])
      ∧ dom ns = {[ "DISCOVERY_DOC_URL"; "DISCOVERY_DOC_URL_BETA";
                    "YAML_CONFIG_PATH" ]}
      ∧ ns !! "DISCOVERY_DOC_URL" = Some (Py.VStr DISCOVERY_DOC_URL)
      ∧ ns !! "DISCOVERY_DOC_URL_BETA" = Some (Py.VStr DISCOVERY_DOC_URL_BETA)
      ∧ ns !! "YAML_CONFIG_PATH" = Some (Py.VStr YAML_CONFIG_PATH)).
Proof.
  assert (∀ ns trace,
      Py.exec_module (ns, trace) diff_config =
        Py.Ok (<["YAML_CONFIG_PATH" := Py.VStr YAML_CONFIG_PATH]>
                 (<["DISCOVERY_DOC_URL_BETA" := Py.VStr DISCOVERY_DOC_URL_BETA]>
                    (<["DISCOVERY_DOC_URL" := Py.VStr DISCOVERY_DOC_URL]> ns)),
               trace)) as Hrun.
  { intros ns trace. unfold diff_config, Py.exec_module.
    repeat (erewrite exec_literal_binding by reflexivity; cbn [Py.bind fst snd]).
    reflexivity. }
  split_and!; [reflexivity | exact Hrun |].
  eexists. split; [apply Hrun|].
  split; [|by split_and!].
  rewrite !dom_insert_L, dom_empty_L. set_solver.
Qed.

(** C2: the stable and the beta URL are the same string but for one path
    segment, the version, which is "v1" in the stable URL and "beta" in the
    beta one: they split on "/" into the same segments around it, and as
    strings share all that precedes and all that follows it. *)
Theorem discovery_urls_differ_in_version_only :
  (∃ before after,
      split "/" DISCOVERY_DOC_URL = before ++ ["v1"] ++ after
      ∧ split "/" DISCOVERY_DOC_URL_BETA = before ++ ["beta"] ++ after)
  ∧ (∃ front back,
      DISCOVERY_DOC_URL = front +:+ "v1" +:+ back
      ∧ DISCOVERY_DOC_URL_BETA = front +:+ "beta" +:+ back
      ∧ endswith "/" front = true
      ∧ startswith "/" back = true).
Proof.
  split.
  - exists ["https:"; ""; "www.googleapis.com"; "discovery"; "v1"; "apis"; "compute"],
      ["rest"].
    split; reflexivity.
  - exists "https://www.googleapis.com/discovery/v1/apis/compute/", "/rest".
    split_and!; reflexivity.
Qed.

(** C3: both discovery endpoint constants begin with the scheme "https://". *)
Theorem discovery_urls_are_https :
  startswith "https://" DISCOVERY_DOC_URL = true
  ∧ startswith "https://" DISCOVERY_DOC_URL_BETA = true.
Proof. split; reflexivity. Qed.

(** C4: YAML_CONFIG_PATH equals "./config.yaml"; it is a file-system path,
    not a URL, and its name carries the ".yaml" extension. *)
Theorem yaml_config_path_is_local_yaml :
  YAML_CONFIG_PATH = "./config.yaml"
  ∧ is_url YAML_CONFIG_PATH = false
  ∧ endswith ".yaml" YAML_CONFIG_PATH = true.
Proof. split_and!; reflexivity. Qed.

(** C9: both URL constants begin with
    "https://www.googleapis.com/discovery/v1/apis/compute/" and end with
    "/rest": Google's Compute API discovery documents. *)
Theorem discovery_urls_target_google_compute :
  Forall (λ url,
      startswith "https://www.googleapis.com/discovery/v1/apis/compute/" url = true
      ∧ endswith "/rest" url = true)
    [DISCOVERY_DOC_URL; DISCOVERY_DOC_URL_BETA].
Proof. repeat constructor. Qed.

(** An absolute path, by contrast, names the same file wherever the process
    runs. *)
Lemma join_absolute cwd1 cwd2 p : isabs p = true → join cwd1 p = join cwd2 p.
Proof. intros Habs. unfold join. by rewrite Habs. Qed.

(** C10: YAML_CONFIG_PATH begins with "./" and is not absolute, so resolving
    it prepends the working directory: no file is the one it denotes under
    every working directory. *)
Theorem yaml_config_path_is_relative :
  startswith "./" YAML_CONFIG_PATH = true
  ∧ isabs YAML_CONFIG_PATH = false
  ∧ (∀ cwd, startswith cwd (join cwd YAML_CONFIG_PATH) = true)
  ∧ join "/srv/a" YAML_CONFIG_PATH ≠ join "/srv/b" YAML_CONFIG_PATH
  ∧ (∀ file, ∃ cwd, join cwd YAML_CONFIG_PATH ≠ file).
Proof.
  split_and!; [reflexivity | reflexivity | | discriminate |].
  - intros cwd. unfold join, startswith.
    change (isabs YAML_CONFIG_PATH) with false. cbv iota.
    assert (∀ s t, String.prefix s (s +:+ t) = true) as Hpre.
    { intros s t. induction s as [|a s IH]; simpl.
      - by destruct t.
      - destruct (ascii_dec a a); [done | congruence]. }
    destruct (_ || _); apply Hpre.
  - intros file. destruct (decide (join "/srv/a" YAML_CONFIG_PATH = file)) as [<-|];
      [exists "/srv/b" | exists "/srv/a"]; [discriminate | done].
Qed.

(** * The filter *)

Lemma suppressed_spec expectations g :
  Comparator.suppressed expectations g = true ↔
  ∃ e, e ∈ expectations
       ∧ e_path e `prefix_of` path g
       ∧ Comparator.suppresses (e_disposition e) = kind g.
Proof.
  unfold Comparator.suppressed, Comparator.matches. rewrite existsb_exists.
  split.
  - intros (e & Hin & [Hp Hk]%andb_prop).
    exists e. rewrite list_elem_of_In.
    by apply bool_decide_eq_true in Hp, Hk.
  - intros (e & Hin & Hp & Hk). exists e. rewrite <- list_elem_of_In.
    split; [done|]. apply andb_true_intro. by rewrite !bool_decide_eq_true.
Qed.

Lemma filter_split (f : gap → bool) gaps :
  base.filter (λ g, f g = false) gaps ++ base.filter (λ g, f g = true) gaps
    ≡ₚ gaps.
Proof.
  induction gaps as [|g gaps IH]; [done|].
  rewrite !filter_cons. destruct (f g) eqn:Hf.
  - rewrite decide_False, decide_True by done.
    by rewrite <- Permutation_middle, IH.
  - rewrite decide_True, decide_False by done. simpl. by rewrite IH.
Qed.

(** C7: filter partitions its input.  Every gap of the input is in exactly
    one of reported and suppressed, no gap is in both, the two results
    together hold the gaps of the input, each as often as the input does, and
    a gap is among the suppressed exactly when an expectation entry matches
    it. *)
Theorem filter_partitions (gaps : list gap) (expectations : list expectation) :
  let reported := (Comparator.filter gaps expectations).1 in
  let suppressed := (Comparator.filter gaps expectations).2 in
  (∀ g, g ∈ gaps →
        (g ∈ reported ∧ g ∉ suppressed) ∨ (g ∈ suppressed ∧ g ∉ reported))
  ∧ (∀ g, ¬ (g ∈ reported ∧ g ∈ suppressed))
  ∧ reported ++ suppressed ≡ₚ gaps
  ∧ (∀ g, g ∈ suppressed ↔
          g ∈ gaps ∧ Comparator.suppressed expectations g = true)
  ∧ (∀ g, g ∈ reported ↔
          g ∈ gaps ∧ Comparator.suppressed expectations g = false).
Proof.
  unfold Comparator.filter. cbn [fst snd]. split_and!.
  - intros g Hg. rewrite !list_elem_of_filter.
    destruct (Comparator.suppressed expectations g); [right | left];
      (split; [done|]); by intros [? _].
  - intros g. rewrite !list_elem_of_filter. intros [[? _] [? _]]. congruence.
  - apply filter_split.
  - intros g. rewrite list_elem_of_filter. tauto.
  - intros g. rewrite list_elem_of_filter. tauto.
Qed.

(** * The expectation store *)

Lemma has_duplicate_spec es :
  ExpectationStore.has_duplicate es = true ↔
  ¬ NoDup (ExpectationStore.entry_key <$> es).
Proof.
  unfold ExpectationStore.has_duplicate.
  rewrite negb_true_iff, bool_decide_eq_false. done.
Qed.

(** Entries that agree on path and kind are one and the same entry: a
    duplicate key is a repeated entry. *)
Lemma entry_key_inj : Inj (=) (=) ExpectationStore.entry_key.
Proof.
  intros [p1 d1] [p2 d2]. unfold ExpectationStore.entry_key. simpl.
  intros [= -> Hd]. by destruct d1, d2.
Qed.

(** C8: load fails exactly when the file is missing, or its text does not
    parse, or the parsed entries repeat a path+kind; the failure is always
    ConfigError; and a successful load returns the entries as parsed, none of
    them repeated, nothing merged. *)
Theorem load_fails_iff
    (read_file : string → option string)
    (parse : string → option (list expectation)) (file : string) :
  let outcome := ExpectationStore.load read_file parse file in
  (outcome = inl ConfigError ↔
     read_file file = None
     ∨ (∃ text, read_file file = Some text ∧ parse text = None)
     ∨ (∃ text es, read_file file = Some text ∧ parse text = Some es
                   ∧ ¬ NoDup (ExpectationStore.entry_key <$> es)))
  ∧ (∀ e, outcome = inl e → e = ConfigError)
  ∧ (∀ es, outcome = inr es →
       ∃ text, read_file file = Some text ∧ parse text = Some es
               ∧ NoDup (ExpectationStore.entry_key <$> es) ∧ NoDup es).
Proof.
  unfold ExpectationStore.load.
  destruct (read_file file) as [text|] eqn:Hread; [|naive_solver].
  destruct (parse text) as [es|] eqn:Hparse; [|naive_solver].
  destruct (ExpectationStore.has_duplicate es) eqn:Hdup.
  - apply has_duplicate_spec in Hdup. naive_solver.
  - assert (NoDup (ExpectationStore.entry_key <$> es)) as Hnd.
    { destruct (decide (NoDup (ExpectationStore.entry_key <$> es))); [done|].
      apply has_duplicate_spec in n. congruence. }
    split_and!.
    + split; [done|]. intros [?|[(? & ? & ?)|(? & ? & ? & ? & ?)]]; naive_solver.
    + done.
    + intros ? [= <-]. exists text. split_and!; [done..|].
      by apply NoDup_fmap_1 in Hnd.
Qed.

(** * The order of the Gap Set *)

Section cmp_order.
Context `{CmpLaws A}.

Lemma cmp_refl (x : A) : cmp x x = Eq.
Proof. by apply cmp_eq. Qed.

Lemma cmp_gt_lt (x y : A) : cmp x y = Gt ↔ cmp y x = Lt.
Proof. rewrite (cmp_opp x y). destruct (cmp x y); simpl; naive_solver. Qed.

Global Instance cmp_le_total : Total (cmp_le (A:=A)).
Proof.
  intros x y. unfold cmp_le. rewrite (cmp_opp x y).
  destruct (cmp x y); simpl; auto.
Qed.

Global Instance cmp_le_trans : Transitive (cmp_le (A:=A)).
Proof.
  intros x y z Hxy Hyz. unfold cmp_le in *.
  destruct (cmp x y) eqn:Exy; [|clear Hxy|done].
  { apply cmp_eq in Exy as ->. done. }
  destruct (cmp y z) eqn:Eyz; [| |done].
  { apply cmp_eq in Eyz as <-. by rewrite Exy. }
  by rewrite (cmp_lt_trans x y z).
Qed.

Global Instance cmp_le_antisym : AntiSymm (=) (cmp_le (A:=A)).
Proof.
  intros x y Hxy Hyx. unfold cmp_le in *. rewrite (cmp_opp x y) in Hyx.
  destruct (cmp x y) eqn:Exy; [by apply cmp_eq | done | done].
Qed.
End cmp_order.

Lemma string_compare_refl s : String.compare s s = Eq.
Proof.
  induction s as [|a s IH]; [done|]. simpl.
  unfold Ascii.compare. by rewrite N.compare_refl.
Qed.

Global Instance string_cmp_laws : CmpLaws string.
Proof.
  split; unfold cmp, string_cmp.
  - intros x y. split; [apply String.compare_eq_iff|].
    intros ->. apply string_compare_refl.
  - intros x y. apply String.compare_antisym.
  - intros x y z Hxy Hyz.
    assert (∀ s t, String.compare s t = Lt → String.le s t) as Hle.
    { intros s t Hst. unfold String.le, String.leb. by rewrite Hst. }
    assert (String.le x z) as Hxz by (trans y; auto).
    unfold String.le, String.leb in Hxz.
    destruct (String.compare x z) eqn:Exz; [|done|done].
    apply String.compare_eq_iff in Exz as ->.
    rewrite String.compare_antisym, Hxy in Hyz. done.
Qed.

Global Instance gap_kind_cmp_laws : CmpLaws gap_kind.
Proof.
  split; unfold cmp, gap_kind_cmp.
  - intros [] []; simpl; split; done.
  - intros [] []; done.
  - intros [] [] []; done.
Qed.

Lemma list_cmp_cons `{Cmp A} (x1 x2 : A) (l1 l2 : list A) :
  cmp (x1 :: l1) (x2 :: l2) =
    match cmp x1 x2 with
    | Eq => cmp l1 l2
    | c => c
    end.
Proof. reflexivity. Qed.

Global Instance list_cmp_laws `{CmpLaws A} : CmpLaws (list A).
Proof.
  split.
  - intros l1. induction l1 as [|x1 l1 IH]; intros [|x2 l2]; try done.
    rewrite list_cmp_cons. destruct (cmp x1 x2) eqn:E.
    + apply cmp_eq in E as ->. rewrite IH. split; [by intros ->|]. by intros [= ->].
    + split; [done|]. intros [= -> _]. by rewrite cmp_refl in E.
    + split; [done|]. intros [= -> _]. by rewrite cmp_refl in E.
  - intros l1. induction l1 as [|x1 l1 IH]; intros [|x2 l2]; try done.
    rewrite !list_cmp_cons, (cmp_opp x1 x2).
    destruct (cmp x1 x2); simpl; auto.
  - intros l1. induction l1 as [|x1 l1 IH]; intros [|x2 l2] [|x3 l3]; try done.
    rewrite !list_cmp_cons.
    destruct (cmp x1 x2) eqn:E12; [| |done].
    + apply cmp_eq in E12 as ->. destruct (cmp x2 x3); eauto.
    + intros _. destruct (cmp x2 x3) eqn:E23; [| |done].
      * apply cmp_eq in E23 as <-. by rewrite E12.
      * by rewrite (cmp_lt_trans x1 x2 x3).
Qed.

Lemma prod_cmp_pair `{Cmp A, Cmp B} (x1 x2 : A) (y1 y2 : B) :
  cmp (x1, y1) (x2, y2) =
    match cmp x1 x2 with
    | Eq => cmp y1 y2
    | c => c
    end.
Proof. reflexivity. Qed.

Global Instance prod_cmp_laws `{CmpLaws A, CmpLaws B} : CmpLaws (A * B).
Proof.
  split.
  - intros [x1 y1] [x2 y2]. rewrite prod_cmp_pair.
    destruct (cmp x1 x2) eqn:E.
    + apply cmp_eq in E as ->. rewrite cmp_eq.
      split; [by intros ->|]. by intros [= ->].
    + split; [done|]. intros [= -> _]. by rewrite cmp_refl in E.
    + split; [done|]. intros [= -> _]. by rewrite cmp_refl in E.
  - intros [x1 y1] [x2 y2]. rewrite !prod_cmp_pair, (cmp_opp x1 x2).
    destruct (cmp x1 x2); simpl; auto using cmp_opp.
  - intros [x1 y1] [x2 y2] [x3 y3]. rewrite !prod_cmp_pair.
    destruct (cmp x1 x2) eqn:E12; [| |done].
    + apply cmp_eq in E12 as ->.
      destruct (cmp x2 x3); eauto using cmp_lt_trans.
    + intros _. destruct (cmp x2 x3) eqn:E23; [| |done].
      * apply cmp_eq in E23 as <-. by rewrite E12.
      * by rewrite (cmp_lt_trans x1 x2 x3).
Qed.

Global Instance gap_le_total : Total gap_le.
Proof.
  intros g1 g2. unfold gap_le.
  apply (total (cmp_le (A:=list string * gap_kind))).
Qed.

Global Instance gap_le_trans : Transitive gap_le.
Proof.
  intros g1 g2 g3. unfold gap_le.
  apply (transitivity (R:=cmp_le (A:=list string * gap_kind))).
Qed.

Lemma gap_le_antisym g1 g2 :
  gap_le g1 g2 → gap_le g2 g1 → path g1 = path g2 ∧ kind g1 = kind g2.
Proof.
  intros H12 H21.
  assert (gap_key g1 = gap_key g2) as [= ? ?]; [|done].
  by apply (anti_symm (cmp_le (A:=list string * gap_kind))).
Qed.

(** The Gap Set is in order, whatever the documents. *)
Lemma diff_sorted stable beta :
  StronglySorted gap_le (Comparator.diff stable beta).
Proof. apply StronglySorted_merge_sort; apply _. Qed.

(** * The comparator *)

(** Induction over documents that reaches the values of a mapping. *)
Lemma document_ind_entries (P : document → Prop) :
  (∀ v, P (Leaf v)) →
  (∀ es, Forall (λ e, P e.2) es → P (Mapping es)) →
  ∀ d, P d.
Proof.
  intros Hleaf Hmap. fix IH 1. intros [v|es]; [apply Hleaf|].
  apply Hmap. induction es as [|e es IHes]; constructor; [apply IH | apply IHes].
Qed.

Section get.
Context {V : Type}.
Implicit Types (k : string) (v : V) (es : list (string * V)).

Lemma get_Some_elem_of k v es : get k es = Some v → (k, v) ∈ es.
Proof.
  induction es as [|[k' v'] es IH]; simpl; [done|].
  case_decide as Hk; [intros [= ->]; subst; left | right; auto].
Qed.

Lemma get_None k es : get k es = None ↔ k ∉ es.*1.
Proof.
  induction es as [|[k' v'] es IH]; simpl.
  - split; [intros _; apply not_elem_of_nil | done].
  - rewrite not_elem_of_cons. case_decide as Hk.
    + split; [done | by intros [? _]].
    + rewrite IH. tauto.
Qed.

Lemma get_is_Some k es : is_Some (get k es) ↔ k ∈ es.*1.
Proof.
  rewrite <- not_eq_None_Some, get_None.
  split; [apply dec_stable | auto].
Qed.

Lemma get_elem_of k v es : NoDup es.*1 → (k, v) ∈ es → get k es = Some v.
Proof.
  induction es as [|[k' v'] es IH]; simpl; [by intros _ ?%elem_of_nil|].
  intros [Hk' Hnd]%NoDup_cons [[= -> ->]|Hin]%elem_of_cons.
  - by rewrite decide_True.
  - rewrite decide_False; [auto|]. intros ->. apply Hk'.
    apply list_elem_of_fmap. by exists (k', v).
Qed.
End get.

Section flat_map.
Context {A B : Type}.
Implicit Types (f g : A → list B) (l : list A).

Lemma elem_of_flat_map f l y : y ∈ flat_map f l ↔ ∃ x, x ∈ l ∧ y ∈ f x.
Proof.
  rewrite list_elem_of_In, in_flat_map.
  by setoid_rewrite list_elem_of_In.
Qed.

Lemma flat_map_nil_elem_of f l : (∀ x, x ∈ l → f x = []) → flat_map f l = [].
Proof.
  induction l as [|x l IH]; simpl; [done|]. intros Hf.
  rewrite (Hf x) by left. apply IH. intros y ?. apply Hf. by right.
Qed.

Lemma flat_map_Permutation f g l1 l2 :
  l1 ≡ₚ l2 → (∀ x, x ∈ l1 → f x ≡ₚ g x) → flat_map f l1 ≡ₚ flat_map g l2.
Proof.
  intros Hl Hfg. trans (flat_map g l1).
  - clear Hl. induction l1 as [|x l1 IH]; simpl; [done|].
    rewrite (Hfg x) by left. f_equiv. apply IH. intros y ?. apply Hfg.
    by right.
  - clear Hfg. induction Hl; simpl; [done | by f_equiv | | by etrans].
    rewrite !(assoc app). f_equiv. apply Permutation_app_comm.
Qed.

Lemma flat_map_fmap {C} (h : C → A) f (l : list C) :
  flat_map f (h <$> l) = flat_map (f ∘ h) l.
Proof. induction l as [|x l IH]; csimpl; [done|]. by rewrite IH. Qed.

Lemma flat_map_ext_elem_of f g l :
  (∀ x, x ∈ l → f x = g x) → flat_map f l = flat_map g l.
Proof.
  induction l as [|x l IH]; simpl; [done|]. intros Hfg.
  rewrite (Hfg x) by left. f_equal. apply IH. intros y ?. apply Hfg.
  by right.
Qed.
End flat_map.

Lemma well_formed_Mapping es :
  well_formed (Mapping es) = true ↔
  NoDup es.*1 ∧ ∀ e, e ∈ es → well_formed e.2 = true.
Proof.
  simpl. rewrite andb_true_iff, bool_decide_eq_true, forallb_forall.
  by setoid_rewrite list_elem_of_In.
Qed.

Lemma well_formed_get k w es :
  well_formed (Mapping es) = true → get k es = Some w → well_formed w = true.
Proof.
  intros [_ Hwf]%well_formed_Mapping Hget%get_Some_elem_of.
  apply (Hwf (k, w) Hget).
Qed.

(** A well-formed document walked against itself shows no gap. *)
Lemma walk_identical d :
  well_formed d = true → ∀ p, Comparator.walk p d d = [].
Proof.
  induction d as [v|es IH] using document_ind_entries; intros Hwf p.
  - simpl. by rewrite decide_True.
  - apply well_formed_Mapping in Hwf as [Hnd Hwf]. simpl.
    rewrite Forall_forall in IH.
    rewrite !flat_map_nil_elem_of; [done| |].
    + intros [k v] Hin. simpl. by rewrite (get_elem_of k v es).
    + intros [k v] Hin. simpl. rewrite (get_elem_of k v es) by done.
      apply (IH (k, v)); [done|]. by apply (Hwf (k, v)).
Qed.

Lemma same_document_Mapping es fs :
  same_document (Mapping es) (Mapping fs) = true ↔
  length es = length fs
  ∧ ∀ e, e ∈ es → ∃ w, get e.1 fs = Some w ∧ same_document e.2 w = true.
Proof.
  simpl. rewrite andb_true_iff, bool_decide_eq_true, forallb_forall.
  setoid_rewrite <- list_elem_of_In.
  split; intros [Hlen Hall]; (split; [done|]); intros e He;
    specialize (Hall e He).
  - destruct (get e.1 fs) as [w|]; [by exists w | done].
  - by destruct Hall as (w & -> & ?).
Qed.

(** Payloads of the same document list the same keys. *)
Lemma same_document_keys es fs :
  NoDup es.*1 → NoDup fs.*1 →
  same_document (Mapping es) (Mapping fs) = true → es.*1 ≡ₚ fs.*1.
Proof.
  intros Hes Hfs [Hlen Hall]%same_document_Mapping.
  apply submseteq_length_Permutation; [|by rewrite !length_fmap, Hlen].
  apply NoDup_submseteq; [done|].
  intros k [[k' v] [-> Hin]]%list_elem_of_fmap.
  destruct (Hall _ Hin) as (w & Hget & _). apply get_is_Some. by exists w.
Qed.

(** ... and hold the same document under each key. *)
Lemma same_document_get es fs k :
  NoDup es.*1 → NoDup fs.*1 →
  same_document (Mapping es) (Mapping fs) = true →
  match get k es, get k fs with
  | Some v, Some w => same_document v w = true
  | None, None => True
  | _, _ => False
  end.
Proof.
  intros Hes Hfs Hsame.
  pose proof (same_document_keys es fs Hes Hfs Hsame) as Hkeys.
  apply same_document_Mapping in Hsame as [_ Hall].
  destruct (get k es) as [v|] eqn:Hv.
  - apply get_Some_elem_of in Hv.
    destruct (Hall _ Hv) as (w & Hw & ?). simpl in Hw. by rewrite Hw.
  - apply get_None in Hv. rewrite Hkeys in Hv. apply get_None in Hv.
    by rewrite Hv.
Qed.

(** The walk of two mappings, read off the keys: under a key of [stable], and
    then under the keys only [beta] has. *)
Lemma walk_Mapping_keys p es fs :
  NoDup es.*1 →
  Comparator.walk p (Mapping es) (Mapping fs) =
    flat_map (λ k,
      match get k es with
      | None => []
      | Some v =>
          match get k fs with
          | None => [Gap (p ++ [k]) Removed NoDetail]
          | Some w => Comparator.walk (p ++ [k]) v w
          end
      end) es.*1
    ++ flat_map (λ k,
      match get k es with
      | None => [Gap (p ++ [k]) Added NoDetail]
      | Some _ => []
      end) fs.*1.
Proof.
  intros Hnd. simpl. rewrite !flat_map_fmap. f_equal.
  apply flat_map_ext_elem_of. intros [k v] Hin. simpl.
  by rewrite (get_elem_of k v es).
Qed.

(** Reordering the keys of either document only permutes what the walk
    finds. *)
Lemma walk_Permutation a :
  ∀ a' b b' p,
    well_formed a = true → well_formed a' = true →
    well_formed b = true → well_formed b' = true →
    same_document a a' = true → same_document b b' = true →
    Comparator.walk p a b ≡ₚ Comparator.walk p a' b'.
Proof.
  induction a as [v|es IH] using document_ind_entries;
    intros a' b b' p Ha Ha' Hb Hb' Haa Hbb.
  - destruct a' as [v'|]; [|done].
    apply bool_decide_eq_true in Haa as <-.
    destruct b as [y|fs], b' as [y'|fs']; try done.
    by apply bool_decide_eq_true in Hbb as <-.
  - destruct a' as [|es']; [done|].
    destruct b as [y|fs], b' as [y'|fs']; try done.
    pose proof Ha as [Hes _]%well_formed_Mapping.
    pose proof Ha' as [Hes' _]%well_formed_Mapping.
    pose proof Hb as [Hfs _]%well_formed_Mapping.
    pose proof Hb' as [Hfs' _]%well_formed_Mapping.
    rewrite !walk_Mapping_keys by done. rewrite Forall_forall in IH.
    apply Permutation_app; apply flat_map_Permutation;
      [by apply same_document_keys | | by apply same_document_keys |];
      intros k _.
    + pose proof (same_document_get es es' k Hes Hes' Haa) as Hk.
      pose proof (same_document_get fs fs' k Hfs Hfs' Hbb) as Hk'.
      destruct (get k es) as [v|] eqn:Hv, (get k es') as [v'|] eqn:Hv';
        try done.
      destruct (get k fs) as [w|] eqn:Hw, (get k fs') as [w'|] eqn:Hw';
        try done.
      apply (IH (k, v)); eauto using get_Some_elem_of, well_formed_get.
    + pose proof (same_document_get es es' k Hes Hes' Haa) as Hk.
      by destruct (get k es), (get k es').
Qed.

(** Every gap of a walk lies at or below the path the walk started from. *)
Lemma walk_prefix a :
  ∀ b p g, g ∈ Comparator.walk p a b → p `prefix_of` path g.
Proof.
  induction a as [v|es IH] using document_ind_entries; intros b p g.
  - destruct b as [y|fs]; simpl; [case_decide|];
      [by intros ?%elem_of_nil | by intros ->%list_elem_of_singleton..].
  - destruct b as [y|fs]; simpl; [by intros ->%list_elem_of_singleton|].
    rewrite Forall_forall in IH.
    rewrite elem_of_app, !elem_of_flat_map.
    intros [(e & He & Hg)|(f & Hf & Hg)].
    + destruct (get e.1 fs) as [w|].
      * apply IH in Hg; [|done]. trans (p ++ [e.1]); [|done].
        by apply prefix_app_r.
      * apply list_elem_of_singleton in Hg as ->. by apply prefix_app_r.
    + destruct (get f.1 es); [by apply elem_of_nil in Hg|].
      apply list_elem_of_singleton in Hg as ->. by apply prefix_app_r.
Qed.

(** A gap found between two mappings sits under one key, and that key tells
    where the gap came from. *)
Lemma walk_Mapping_elem_of p es fs g :
  NoDup es.*1 →
  g ∈ Comparator.walk p (Mapping es) (Mapping fs) →
  ∃ k, (p ++ [k]) `prefix_of` path g ∧
    match get k es with
    | Some v =>
        match get k fs with
        | None => g = Gap (p ++ [k]) Removed NoDetail
        | Some w => g ∈ Comparator.walk (p ++ [k]) v w
        end
    | None => g = Gap (p ++ [k]) Added NoDetail
    end.
Proof.
  intros Hnd. rewrite walk_Mapping_keys by done.
  rewrite elem_of_app, !elem_of_flat_map.
  intros [(k & _ & Hg)|(k & _ & Hg)]; exists k.
  - destruct (get k es) as [v|]; [|by apply elem_of_nil in Hg].
    destruct (get k fs) as [w|].
    + split; [by apply walk_prefix in Hg | done].
    + by apply list_elem_of_singleton in Hg as ->.
  - destruct (get k es) as [v|]; [by apply elem_of_nil in Hg|].
    by apply list_elem_of_singleton in Hg as ->.
Qed.

Lemma prefix_snoc_inj (p l : list string) k1 k2 :
  (p ++ [k1]) `prefix_of` l → (p ++ [k2]) `prefix_of` l → k1 = k2.
Proof.
  intros [r1 ->] [r2 Heq]. rewrite <- !(assoc app) in Heq.
  by apply (inj (app p)) in Heq as [= ->].
Qed.

(** The walk reports at most one gap per path. *)
Lemma walk_path_inj a :
  ∀ b p g1 g2,
    well_formed a = true → well_formed b = true →
    g1 ∈ Comparator.walk p a b → g2 ∈ Comparator.walk p a b →
    path g1 = path g2 → g1 = g2.
Proof.
  induction a as [v|es IH] using document_ind_entries;
    intros b p g1 g2 Ha Hb.
  - destruct b as [y|fs]; simpl; [case_decide|];
      [by intros ?%elem_of_nil
      | by intros ->%list_elem_of_singleton ->%list_elem_of_singleton..].
  - destruct b as [y|fs]; simpl;
      [by intros ->%list_elem_of_singleton ->%list_elem_of_singleton|].
    pose proof Ha as [Hes _]%well_formed_Mapping.
    intros (k1 & Hp1 & H1)%walk_Mapping_elem_of
           (k2 & Hp2 & H2)%walk_Mapping_elem_of Hpath; [|done..].
    rewrite Hpath in Hp1. assert (k1 = k2) as -> by eauto using prefix_snoc_inj.
    rewrite Forall_forall in IH.
    destruct (get k2 es) as [v|] eqn:Hv; [|by subst].
    destruct (get k2 fs) as [w|] eqn:Hw; [|by subst].
    apply (IH (k2, v)) with w (p ++ [k2]);
      eauto using get_Some_elem_of, well_formed_get.
Qed.

(** Two payloads of one document are the same document, however each lists
    its keys; in particular a payload is the same document as itself. *)
Lemma same_document_refl d : well_formed d = true → same_document d d = true.
Proof.
  induction d as [v|es IH] using document_ind_entries; intros Hwf.
  - simpl. by apply bool_decide_eq_true.
  - apply well_formed_Mapping in Hwf as [Hnd Hwf].
    apply same_document_Mapping. split; [done|]. intros [k v] Hin.
    exists v. split; [by apply get_elem_of|].
    rewrite Forall_forall in IH. apply (IH (k, v) Hin), (Hwf (k, v) Hin).
Qed.

(** C5: the diff of a document with itself is the empty Gap Set. *)
Theorem diff_identical (d : document) :
  well_formed d = true → Comparator.diff d d = [].
Proof.
  intros Hwf. unfold Comparator.diff. by rewrite walk_identical.
Qed.

Lemma diff_identical_witness :
  well_formed beta_doc = true ∧ Comparator.diff beta_doc beta_doc = [].
Proof. split; [reflexivity | apply diff_identical; reflexivity]. Defined.

(** C6: diff does not depend on the order in which the payloads list their
    keys: two payloads of the stable document and two payloads of the beta
    document give the same Gap Set, gap for gap, and that Gap Set is ordered
    by path, then kind. *)
Theorem diff_deterministic (stable stable' beta beta' : document) :
  well_formed stable = true → well_formed stable' = true →
  well_formed beta = true → well_formed beta' = true →
  same_document stable stable' = true → same_document beta beta' = true →
  Comparator.diff stable beta = Comparator.diff stable' beta'
  ∧ StronglySorted gap_le (Comparator.diff stable beta).
Proof.
  intros Hs Hs' Hb Hb' Hss Hbb. split; [|apply diff_sorted].
  apply (StronglySorted_unique_strong gap_le); [|apply diff_sorted..|].
  - unfold Comparator.diff. intros g1 g2. rewrite !merge_sort_Permutation.
    rewrite <- (walk_Permutation stable stable' beta beta' []) by done.
    intros Hg1 Hg2 H12 H21. apply (walk_path_inj stable beta [] g1 g2); try done.
    by destruct (gap_le_antisym g1 g2).
  - unfold Comparator.diff. rewrite !merge_sort_Permutation.
    by apply walk_Permutation.
Qed.

Lemma diff_deterministic_witness :
  same_document stable_doc stable_doc = true
  ∧ same_document beta_doc beta_doc_reordered = true
  ∧ Comparator.diff stable_doc beta_doc =
      Comparator.diff stable_doc beta_doc_reordered
  ∧ StronglySorted gap_le (Comparator.diff stable_doc beta_doc).
Proof.
  split; [reflexivity|]. split; [reflexivity|].
  apply diff_deterministic; reflexivity.
Defined.

(** Payloads of the same document show no gap either. *)
Lemma diff_same_document a b :
  well_formed a = true → well_formed b = true →
  same_document a b = true → Comparator.diff a b = [].
Proof.
  intros Ha Hb Hab. unfold Comparator.diff.
  assert (Comparator.walk [] a b ≡ₚ []) as ->%Permutation_nil_r; [|done].
  rewrite <- (walk_identical a Ha []). symmetry.
  apply walk_Permutation; auto using same_document_refl.
Qed.

(** * The scenarios of section 8 *)

Example diff_scenario :
  Comparator.diff stable_doc beta_doc =
    [Gap ["instances"; "insert"] Added NoDetail].
Proof. reflexivity. Qed.

Example diff_scenario_reversed :
  Comparator.diff beta_doc stable_doc =
    [Gap ["instances"; "insert"] Removed NoDetail].
Proof. reflexivity. Qed.

Example diff_scenario_changed :
  Comparator.diff
    (Mapping [("zones", Leaf "GET"); ("disks", Mapping [("get", Leaf "GET")])])
    (Mapping [("disks", Leaf "GET"); ("zones", Leaf "POST")]) =
    [Gap ["disks"] Changed Shape; Gap ["zones"] Changed (Values "GET" "POST")].
Proof. reflexivity. Qed.

Example filter_scenario :
  Comparator.filter (Comparator.diff stable_doc beta_doc)
    [Expectation ["instances"; "insert"] ignore_addition] =
    ([], [Gap ["instances"; "insert"] Added NoDetail]).
Proof. reflexivity. Qed.

Example filter_scenario_other_kind :
  Comparator.filter (Comparator.diff stable_doc beta_doc)
    [Expectation ["instances"] ignore_removal] =
    ([Gap ["instances"; "insert"] Added NoDetail], []).
Proof. reflexivity. Qed.

Example load_scenario_duplicate :
  ExpectationStore.load
    (λ _, Some "expectations")
    (λ _, Some [Expectation ["instances"; "insert"] ignore_addition;
                Expectation ["instances"; "insert"] ignore_addition])
    YAML_CONFIG_PATH = inl ConfigError.
Proof. reflexivity. Qed.

Example load_scenario_missing :
  ExpectationStore.load (λ _, None) (λ _, Some []) YAML_CONFIG_PATH
    = inl ConfigError.
Proof. reflexivity. Qed.

Example load_scenario_ok :
  ExpectationStore.load
    (λ _, Some "expectations")
    (λ _, Some [Expectation ["instances"; "insert"] ignore_addition;
                Expectation ["instances"; "insert"] ignore_removal])
    YAML_CONFIG_PATH =
    inr [Expectation ["instances"; "insert"] ignore_addition;
         Expectation ["instances"; "insert"] ignore_removal].
Proof. reflexivity. Qed.

Example discovery_urls_are_urls :
  is_url DISCOVERY_DOC_URL = true ∧ is_url DISCOVERY_DOC_URL_BETA = true.
Proof. split; reflexivity. Qed.

(** * Running the module again, or in another order *)

(** A body of literal bindings runs to the namespace with those bindings put
    in, one after the other, and leaves the trace alone. *)
Lemma exec_module_literal_bindings body bs st :
  mapM Py.binding body = Some bs →
  Py.exec_module st body =
    Py.Ok (foldl (λ ns b, <[b.1 := Py.VStr b.2]> ns) st.1 bs, st.2).
Proof.
  revert bs st. induction body as [|s body IH]; intros bs st Hb.
  { injection Hb as <-. by destruct st. }
  change (mapM Py.binding (s :: body)) with
    (b ← Py.binding s; k ← mapM Py.binding body; mret (b :: k)) in Hb.
  destruct s as [x e| | |]; try done.
  change (Py.binding (Py.Assign x e)) with (pair x <$> Py.literal e) in Hb.
  destruct (Py.literal e) as [lit|] eqn:Hlit; [|done].
  destruct (mapM Py.binding body) as [bs'|]; [|done].
  injection Hb as <-. cbn [Py.exec_module].
  rewrite (exec_literal_binding st x e lit) by done.
  cbn [Py.bind]. by rewrite (IH bs').
Qed.

Lemma diff_config_bindings :
  mapM Py.binding diff_config =
    Some [ ("DISCOVERY_DOC_URL", DISCOVERY_DOC_URL);
           ("DISCOVERY_DOC_URL_BETA", DISCOVERY_DOC_URL_BETA);
           ("YAML_CONFIG_PATH", YAML_CONFIG_PATH) ].
Proof. reflexivity. Qed.

(** Running the module a second time changes nothing: on a reload the three
    names are bound again to the same literals, and that is all. *)
Theorem diff_config_reload_idempotent (st : gmap string Py.value * list Py.event) :
  Py.bind (Py.exec_module st diff_config)
          (λ st', Py.exec_module st' diff_config)
  = Py.exec_module st diff_config.
Proof.
  rewrite (exec_module_literal_bindings _ _ st diff_config_bindings).
  cbn [Py.bind].
  rewrite (exec_module_literal_bindings _ _ _ diff_config_bindings).
  cbn [fst snd foldl]. do 2 f_equal.
  apply map_eq. intros x. rewrite !lookup_insert.
  repeat case_decide; done.
Qed.

(** The three assignments do not depend on one another: the statements of the
    module, run in any order, leave the same namespace and trace. *)
Theorem diff_config_order_irrelevant (body : list Py.stmt) :
  body ≡ₚ diff_config →
  ∀ st, Py.exec_module st body = Py.exec_module st diff_config.
Proof.
  intros Hperm%symmetry%permutations_Permutation st.
  rewrite (exec_module_literal_bindings _ _ st diff_config_bindings).
  unfold diff_config in Hperm. cbn in Hperm.
  repeat (apply elem_of_cons in Hperm as [->|Hperm]);
    [..|by apply elem_of_nil in Hperm];
    (erewrite exec_module_literal_bindings by reflexivity);
    cbn [fst snd foldl]; do 2 f_equal;
    apply map_eq; intros x; rewrite !lookup_insert;
    repeat case_decide; simplify_eq; done.
Qed.

Lemma diff_config_order_irrelevant_witness :
  reverse diff_config ≡ₚ diff_config
  ∧ ∀ st, Py.exec_module st (reverse diff_config)
          = Py.exec_module st diff_config.
Proof.
  split; [apply reverse_Permutation|].
  apply diff_config_order_irrelevant, reverse_Permutation.
Defined.
